(** * cmap::Bimap — a shallow embedding of [lib/bimap.h]

    The class template [cmap::Bimap<TypeKey, TypeValue>] owns two [std::map]
    members, [m_map] (key to value) and [m_mapInversed] (value to key).  Each
    member function is translated below, under its own name, as a function
    on a record holding the two maps.

    [std::map<A, B>] is rendered as a finite map [gmap A B]:
      - [m[a] = b]            is  [<[a:=b]> m]   (insert or overwrite),
      - [m.find(a)], [m.at(a)] are [m !! a]      ([None] is [cend()], resp.
                                                  the [std::out_of_range] case),
      - [m.erase(a)], [m.erase(it)] are [delete a m],
      - [m.size()]            is  [size m],
      - [m.clear()]           gives [∅],
      - [m.begin() .. m.end()] walks the entries in ascending key order.
    The template parameters are the section variables [K] and [V]; the tests
    instantiate them with [int] and [std::string], here [Z] and [string]. *)

From stdpp Require Import gmap strings list fin_maps sorting.
From Stdlib Require Import ZArith.

Module cmap.

(** ** Data *)

(** [std::out_of_range] is the only exception the class lets escape. *)
Inductive exception : Type :=
  | out_of_range.

(** What a call hands back to its caller: a returned value or a thrown
    exception. *)
Inductive result (A : Type) : Type :=
  | Returns (a : A)
  | Throws (e : exception).
Arguments Returns {A} a.
Arguments Throws {A} e.

(** The two private members of the class. *)
Record Bimap (K V : Type) `{Countable K, Countable V} : Type := mkBimap {
  m_map : gmap K V;
  m_mapInversed : gmap V K
}.
Arguments mkBimap {K V _ _ _ _} m_map m_mapInversed.
Arguments m_map {K V _ _ _ _} b.
Arguments m_mapInversed {K V _ _ _ _} b.

Section methods.
Context {K V : Type} `{Countable K, Countable V}.

Implicit Types (b : Bimap K V) (key k : K) (value v : V).

(** Both members right after their default construction. *)
Definition members_default : Bimap K V :=
  mkBimap ∅ ∅.

(** [void clear()] *)
Definition clear b : Bimap K V :=
  mkBimap ∅ ∅.

(** [Bimap()] : the body calls [clear()] on the fresh members. *)
Definition Bimap_new : Bimap K V :=
  clear members_default.

(** [bool empty() const] : [m_map.empty()] *)
Definition empty b : bool :=
  bool_decide (base.size (m_map b) = 0).

(** [std::size_t size() const] : [m_map.size()] *)
Definition size b : nat :=
  base.size (m_map b).

(** [void insert(const TypeKey &key, const TypeValue &value)], on the two
    values its parameters hold throughout the call.  The parameters are
    references: [insert_ref] below reads them where the body does, and is
    this function whenever the first assignment leaves what they designate
    alone, as it does for every argument that is not the container's own
    stored value for [key]. *)
Definition insert key value b : Bimap K V :=
  mkBimap (<[key:=value]> (m_map b)) (<[value:=key]> (m_mapInversed b)).

(** [void insert(const _TypeNode &node)] and its rvalue overload *)
Definition insert_node (node : K * V) b : Bimap K V :=
  insert node.1 node.2 b.

(** [void erase(const TypeKey &key)] *)
Definition erase key b : Bimap K V :=
  match m_map b !! key with
  | None => b
  | Some second =>
      mkBimap (delete key (m_map b)) (delete second (m_mapInversed b))
  end.

(** [const TypeValue& getValue(const TypeKey &key) const] : [m_map.at(key)] *)
Definition getValue b key : result V :=
  match m_map b !! key with
  | Some value => Returns value
  | None => Throws out_of_range
  end.

(** [const TypeKey& getKey(const TypeValue &value) const] :
    [m_mapInversed.at(value)] *)
Definition getKey b value : result K :=
  match m_mapInversed b !! value with
  | Some key => Returns key
  | None => Throws out_of_range
  end.

(** [Bimap(const std::initializer_list<_TypeNode> &args)] : the loop
    [for (it = args.begin(); it != args.end(); ++it) insert( *it )],
    run on the default-constructed members. *)
Fixpoint Bimap_init_loop (args : list (K * V)) (this : Bimap K V) : Bimap K V :=
  match args with
  | [] => this
  | node :: rest => Bimap_init_loop rest (insert_node node this)
  end.

Definition Bimap_init (args : list (K * V)) : Bimap K V :=
  Bimap_init_loop args members_default.

(** ** Calls as data

    A public member call and what the caller observes of it.  [step] runs
    one call: it yields the container after the call and the response. *)
Inductive call : Type :=
  | CallClear
  | CallInsert (key : K) (value : V)
  | CallErase (key : K)
  | CallGetValue (key : K)
  | CallGetKey (value : V)
  | CallSize
  | CallEmpty.

Inductive response : Type :=
  | RVoid
  | RValue (r : result V)
  | RKey (r : result K)
  | RSize (n : nat)
  | RBool (t : bool).

Definition step b (c : call) : Bimap K V * response :=
  match c with
  | CallClear => (clear b, RVoid)
  | CallInsert key value => (insert key value b, RVoid)
  | CallErase key => (erase key b, RVoid)
  | CallGetValue key => (b, RValue (getValue b key))
  | CallGetKey value => (b, RKey (getKey b value))
  | CallSize => (b, RSize (size b))
  | CallEmpty => (b, RBool (empty b))
  end.

(** A response that carries a thrown exception. *)
Definition failed (r : response) : bool :=
  match r with
  | RValue (Throws _) | RKey (Throws _) => true
  | _ => false
  end.

(** Sequences of mutating calls, for statements over every history. *)
Inductive op : Type :=
  | Insert (key : K) (value : V)
  | Erase (key : K).

Definition apply_op b (o : op) : Bimap K V :=
  match o with
  | Insert key value => insert key value b
  | Erase key => erase key b
  end.

Definition run b (ops : list op) : Bimap K V :=
  foldl apply_op b ops.

(** The container as it stands after each operation of [ops] in turn. *)
Fixpoint states_after b (ops : list op) : list (Bimap K V) :=
  match ops with
  | [] => []
  | o :: rest => apply_op b o :: states_after (apply_op b o) rest
  end.

End methods.

(** ** Iteration

    [begin()], [end()], [rbegin()] and [rend()] hand out the iterators of
    [m_map].  A [std::map] keeps its entries ordered by the key comparison
    ([std::less<TypeKey>], here the strict part of [Kle]); an iterator is a
    position in that ordered sequence, [end()] being the position after the
    last entry. *)
Section iteration.
Context {K V : Type} `{Countable K, Countable V}.
Context (Kle : relation K) `{!RelDecision Kle}.

Implicit Types (b : Bimap K V).

Definition entry_le (p q : K * V) : Prop :=
  Kle p.1 q.1.

Definition entry_lt (p q : K * V) : Prop :=
  strict Kle p.1 q.1.

#[global] Instance entry_le_dec : RelDecision entry_le :=
  λ p q, decide (Kle p.1 q.1).

(** The entries of a [std::map] in the order its iterators visit them. *)
Definition in_order (m : gmap K V) : list (K * V) :=
  merge_sort entry_le (map_to_list m).

Record iterator : Type := mkIterator {
  position : nat
}.

#[global] Instance iterator_eq_dec : EqDecision iterator.
Proof. solve_decision. Defined.

(** [std::reverse_iterator] wraps the iterator one past the entry it
    designates. *)
Record reverse_iterator : Type := mkReverse {
  current : iterator
}.

#[global] Instance reverse_iterator_eq_dec : EqDecision reverse_iterator.
Proof. solve_decision. Defined.

(** [iterator begin()] : [m_map.begin()] *)
Definition begin b : iterator :=
  mkIterator 0.

(** [iterator end()] : [m_map.end()] *)
Definition end_ b : iterator :=
  mkIterator (base.size (m_map b)).

(** [reverse_iterator rbegin()] : [m_map.rbegin()] *)
Definition rbegin b : reverse_iterator :=
  mkReverse (end_ b).

(** [reverse_iterator rend()] : [m_map.rend()] *)
Definition rend b : reverse_iterator :=
  mkReverse (begin b).

(** [*it] and [++it]; dereferencing [end()] designates no entry. *)
Definition deref b (it : iterator) : option (K * V) :=
  in_order (m_map b) !! position it.

Definition incr (it : iterator) : iterator :=
  mkIterator (S (position it)).

(** [*rit] reads the entry before [current]; [++rit] moves [current] back. *)
Definition rderef b (rit : reverse_iterator) : option (K * V) :=
  match position (current rit) with
  | O => None
  | S n => in_order (m_map b) !! n
  end.

Definition rincr (rit : reverse_iterator) : reverse_iterator :=
  mkReverse (mkIterator (pred (position (current rit)))).

(** [for (it = first; it != last; ++it) visit( *it )], collecting the
    visited entries; [fuel] bounds the number of rounds. *)
Fixpoint walk (fuel : nat) b (it last : iterator) : list (K * V) :=
  match fuel with
  | O => []
  | S fuel' =>
      if decide (it = last) then []
      else match deref b it with
           | Some p => p :: walk fuel' b (incr it) last
           | None => []
           end
  end.

Fixpoint rwalk (fuel : nat) b (rit rlast : reverse_iterator) : list (K * V) :=
  match fuel with
  | O => []
  | S fuel' =>
      if decide (rit = rlast) then []
      else match rderef b rit with
           | Some p => p :: rwalk fuel' b (rincr rit) rlast
           | None => []
           end
  end.

End iteration.

(** ** Properties the specification names *)
Section properties.
Context {K V : Type} `{Countable K, Countable V}.

Implicit Types (b : Bimap K V) (k : K) (v : V).




(** The two members mirror each other entry for entry. *)
Definition mirrored b : Prop :=
  (∀ k v, m_map b !! k = Some v ↔ m_mapInversed b !! v = Some k) ∧
  base.size (m_map b) = base.size (m_mapInversed b).

(** [insert(k, v)] meets no other key that currently holds [v]. *)
Definition value_unclaimed b k v : Prop :=
  ∀ k', m_map b !! k' = Some v → k' = k.

(** [insert(k, v)] does not give a present key a different value. *)
Definition key_unchanged b k v : Prop :=
  ∀ v', m_map b !! k = Some v' → v' = v.

(** A history in which no insert hands a key the value of another key. *)
Fixpoint no_value_collision b (ops : list op) : Prop :=
  match ops with
  | [] => True
  | Insert k v :: rest =>
      value_unclaimed b k v ∧ no_value_collision (insert k v b) rest
  | Erase k :: rest => no_value_collision (erase k b) rest
  end.

(** A history in which no insert re-binds a present key. *)
Fixpoint no_key_rebinding b (ops : list op) : Prop :=
  match ops with
  | [] => True
  | Insert k v :: rest =>
      key_unchanged b k v ∧ no_key_rebinding (insert k v b) rest
  | Erase k :: rest => no_key_rebinding (erase k b) rest
  end.

(** Executable forms of the two side conditions and of the histories that
    meet them. *)
Definition value_unclaimedb b k v : bool :=
  forallb (λ p, implb (bool_decide (p.2 = v)) (bool_decide (p.1 = k)))
          (map_to_list (m_map b)).

Definition key_unchangedb b k v : bool :=
  match m_map b !! k with
  | Some v' => bool_decide (v' = v)
  | None => true
  end.

Fixpoint no_value_collisionb b (ops : list op) : bool :=
  match ops with
  | [] => true
  | Insert k v :: rest =>
      value_unclaimedb b k v && no_value_collisionb (insert k v b) rest
  | Erase k :: rest => no_value_collisionb (erase k b) rest
  end.

Fixpoint no_key_rebindingb b (ops : list op) : bool :=
  match ops with
  | [] => true
  | Insert k v :: rest =>
      key_unchangedb b k v && no_key_rebindingb (insert k v b) rest
  | Erase k :: rest => no_key_rebindingb (erase k b) rest
  end.

(** Construction as the specification words it: start from an empty bimap
    and apply [insert(k, v)] for each pair of the sequence, in order. *)
Definition construct_by_inserts (pairs : list (K * V)) : Bimap K V :=
  foldl (λ b p, insert p.1 p.2 b) Bimap_new pairs.

(** The value of the last pair of [pairs] whose key is [k]. *)
Fixpoint last_value k (pairs : list (K * V)) : option V :=
  match pairs with
  | [] => None
  | (k', v') :: rest =>
      match last_value k rest with
      | Some v => Some v
      | None => if decide (k' = k) then Some v' else None
      end
  end.

End properties.

(** ** The fixture of the test suite *)

Open Scope Z_scope.

(** [cmap::Bimap<int, std::string> m_mapNumberToString] of [BimapTests] *)
Definition m_mapNumberToString : Bimap Z string :=
  Bimap_init [(1, "ONE"%string); (2, "TWO"%string); (3, "THREE"%string)].

Close Scope Z_scope.

(** ** Further members and the vocabulary of their properties *)
Section more_definitions.
Context {K V : Type} `{Countable K, Countable V}.

Implicit Types (b : Bimap K V) (k : K) (v : V).

(** [const_iterator cbegin() const] : [m_map.cbegin()] *)
Definition cbegin b : iterator :=
  mkIterator 0.

(** [const_iterator cend() const] : [m_map.cend()] *)
Definition cend b : iterator :=
  mkIterator (base.size (m_map b)).

(** [const_reverse_iterator crbegin() const] : [m_map.crbegin()] *)
Definition crbegin b : reverse_iterator :=
  mkReverse (cend b).

(** [const_reverse_iterator crend() const] : [m_map.crend()] *)
Definition crend b : reverse_iterator :=
  mkReverse (cbegin b).

(** What the calls of a history that name [k] leave for [k], given what [k]
    had at the start: the value of the last [insert(k, _)], or nothing when
    an [erase(k)] came after it. *)
Fixpoint binding_after k (ops : list (@op K V)) (start : option V) : option V :=
  match ops with
  | [] => start
  | Insert k' v :: rest =>
      binding_after k rest (if decide (k' = k) then Some v else start)
  | Erase k' :: rest =>
      binding_after k rest (if decide (k' = k) then None else start)
  end.

(** The key of the last pair of [pairs] whose value is [v]. *)
Fixpoint last_key v (pairs : list (K * V)) : option K :=
  match pairs with
  | [] => None
  | (k', v') :: rest =>
      match last_key v rest with
      | Some k => Some k
      | None => if decide (v' = v) then Some k' else None
      end
  end.

End more_definitions.

(** Deciding the strict part of the key comparison, [std::less<TypeKey>]. *)
Section key_order.
Context {K : Type} (Kle : relation K) `{!RelDecision Kle}.

#[global] Instance strict_key_dec : RelDecision (strict Kle) :=
  λ x y, decide (Kle x y ∧ ¬ Kle y x).

End key_order.

(** ** Arguments taken by reference

    [insert] and [erase] take [const TypeKey &] and [const TypeValue &].
    What such a parameter reads is the object it designates, and that object
    may live inside the container: [getValue] and [getKey] return references
    to the mapped values of [m_map] and [m_mapInversed].  A reference is
    rendered as the function giving, for each state of the container, the
    value read through it in that state. *)
Section references.
Context {K V : Type} `{Countable K, Countable V}.

Implicit Types (b : Bimap K V).

(** An object the container does not hold: a literal, a local, a temporary. *)
Definition object {T : Type} (x : T) : Bimap K V → T :=
  λ _, x.

(** The reference [getValue(k0)] returned: the mapped value of the node of
    [k0] in [m_map]; [was] is what it read when it was returned. *)
Definition getValue_ref (k0 : K) (was : V) : Bimap K V → V :=
  λ b, default was (m_map b !! k0).

(** The reference [getKey(v0)] returned: the mapped value of the node of
    [v0] in [m_mapInversed]. *)
Definition getKey_ref (v0 : V) (was : K) : Bimap K V → K :=
  λ b, default was (m_mapInversed b !! v0).

(** The container after [m_map[key] = value;], the first statement of
    [insert]. *)
Definition forward_assigned (key : Bimap K V → K) (value : Bimap K V → V) b
  : Bimap K V :=
  mkBimap (<[key b := value b]> (m_map b)) (m_mapInversed b).

(** [void insert(const TypeKey &key, const TypeValue &value)]:
    [m_map[key] = value;] reads both parameters in the container as the
    call finds it, [m_mapInversed[value] = key;] reads them again in the
    container the first statement left. *)
Definition insert_ref (key : Bimap K V → K) (value : Bimap K V → V) b
  : Bimap K V :=
  mkBimap (m_map (forward_assigned key value b))
          (<[value (forward_assigned key value b) :=
               key (forward_assigned key value b)]>
             (m_mapInversed (forward_assigned key value b))).

(** The first statement of [insert(key, value)] leaves what [r] reads as it
    was. *)
Definition survives {T : Type} (r : Bimap K V → T)
    (key : Bimap K V → K) (value : Bimap K V → V) b : Prop :=
  r (forward_assigned key value b) = r b.

Definition arguments_kept (key : Bimap K V → K) (value : Bimap K V → V) b
  : Prop :=
  survives key key value b ∧ survives value key value b.

(** Mutating calls with their arguments as the caller passes them.
    [erase] reads its parameter once, in [m_map.find(key)]. *)
Inductive rcall : Type :=
  | RInsert (key : Bimap K V → K) (value : Bimap K V → V)
  | RErase (key : Bimap K V → K).

Definition apply_rcall b (c : rcall) : Bimap K V :=
  match c with
  | RInsert key value => insert_ref key value b
  | RErase key => erase (key b) b
  end.

Definition run_refs b (calls : list rcall) : Bimap K V :=
  foldl apply_rcall b calls.


(** What each call of a history read through its parameters on entry. *)
Definition values_read_by b (c : rcall) : op :=
  match c with
  | RInsert key value => Insert (key b) (value b)
  | RErase key => Erase (key b)
  end.

Fixpoint values_read b (calls : list rcall) : list op :=
  match calls with
  | [] => []
  | c :: rest => values_read_by b c :: values_read (apply_rcall b c) rest
  end.

(** No insert of the history overwrites, by its first statement, what one
    of its own parameters designates. *)
Fixpoint arguments_survive b (calls : list rcall) : Prop :=
  match calls with
  | [] => True
  | RInsert key value :: rest =>
      arguments_kept key value b ∧
      arguments_survive (insert_ref key value b) rest
  | RErase key :: rest => arguments_survive (erase (key b) b) rest
  end.

End references.

(** * Theorems *)

Section lookups.
Context {K V : Type} `{Countable K, Countable V}.

Implicit Types (b : Bimap K V) (k : K) (v : V).

(** ** The two lookups, read off the members *)

Lemma getValue_Returns b k v :
  getValue b k = Returns v ↔ m_map b !! k = Some v.
Proof.
  unfold getValue. destruct (m_map b !! k) as [w|]; split; intros E;
    try discriminate; by inversion E.
Qed.

Lemma getValue_Throws b k e :
  getValue b k = Throws e ↔ m_map b !! k = None.
Proof.
  unfold getValue. destruct (m_map b !! k) as [w|]; split; intros E;
    try discriminate; by destruct e.
Qed.

Lemma getKey_Returns b v k :
  getKey b v = Returns k ↔ m_mapInversed b !! v = Some k.
Proof.
  unfold getKey. destruct (m_mapInversed b !! v) as [w|]; split; intros E;
    try discriminate; by inversion E.
Qed.

Lemma getKey_Throws b v e :
  getKey b v = Throws e ↔ m_mapInversed b !! v = None.
Proof.
  unfold getKey. destruct (m_mapInversed b !! v) as [w|]; split; intros E;
    try discriminate; by destruct e.
Qed.

(** ** What [erase] does to the members *)

Lemma erase_present b k v :
  m_map b !! k = Some v →
  erase k b = mkBimap (delete k (m_map b)) (delete v (m_mapInversed b)).
Proof. intros E. unfold erase. by rewrite E. Qed.

Lemma erase_absent b k :
  m_map b !! k = None → erase k b = b.
Proof. intros E. unfold erase. by rewrite E. Qed.

Lemma erase_forward_gone b k :
  m_map (erase k b) !! k = None.
Proof.
  destruct (m_map b !! k) as [v|] eqn:E.
  - rewrite (erase_present _ _ _ E). apply lookup_delete_eq.
  - by rewrite (erase_absent _ _ E).
Qed.

End lookups.

Section contract.
Context {K V : Type} `{Countable K, Countable V}.

Implicit Types (b : Bimap K V) (k : K) (v : V).

(** C4.  [getValue(key)] returns the value the forward map holds for [key]
    and throws [std::out_of_range] exactly when [key] is absent from the
    forward map; [getKey(value)] does the same on the reverse map; neither
    call changes the container. *)
Theorem lookups_strict_and_pure b k v :
  (∀ w, getValue b k = Returns w ↔ m_map b !! k = Some w) ∧
  (getValue b k = Throws out_of_range ↔ m_map b !! k = None) ∧
  (∀ j, getKey b v = Returns j ↔ m_mapInversed b !! v = Some j) ∧
  (getKey b v = Throws out_of_range ↔ m_mapInversed b !! v = None) ∧
  (failed (step b (CallGetValue k)).2 = true ↔ m_map b !! k = None) ∧
  (failed (step b (CallGetKey v)).2 = true ↔ m_mapInversed b !! v = None) ∧
  (step b (CallGetValue k)).1 = b ∧
  (step b (CallGetKey v)).1 = b.
Proof.
  split; [intros w; apply getValue_Returns|].
  split; [apply getValue_Throws|].
  split; [intros j; apply getKey_Returns|].
  split; [apply getKey_Throws|].
  split; [|split; [|done]]; simpl.
  - unfold getValue. by destruct (m_map b !! k).
  - unfold getKey. by destruct (m_mapInversed b !! v).
Qed.

(** C5.  [erase(k)] on a present key removes the forward entry of [k] and the
    reverse entry of the value [k] had; on an absent key it leaves the
    container as it is; it never throws; erasing twice leaves the container
    as erasing once. *)
Theorem erase_removes_pair_or_nothing b k :
  (∀ v, m_map b !! k = Some v →
        m_map (erase k b) !! k = None ∧
        m_mapInversed (erase k b) !! v = None ∧
        getValue (erase k b) k = Throws out_of_range ∧
        getKey (erase k b) v = Throws out_of_range) ∧
  (m_map b !! k = None → erase k b = b) ∧
  (step b (CallErase k)).2 = RVoid ∧
  (step (erase k b) (CallErase k)).2 = RVoid ∧
  erase k (erase k b) = erase k b.
Proof.
  split; [|split; [|split; [|split]]]; try done.
  - intros v E. rewrite (erase_present _ _ _ E).
    assert (Hf : delete k (m_map b) !! k = None) by apply lookup_delete_eq.
    assert (Hr : delete v (m_mapInversed b) !! v = None)
      by apply lookup_delete_eq.
    repeat split; try done.
    + by apply getValue_Throws.
    + by apply getKey_Throws.
  - apply erase_absent.
  - apply erase_absent, erase_forward_gone.
Qed.

(** C6.  [insert(key, value)] raises [size()] by exactly one when [key] is
    new to the container (whether or not [value] collides), and leaves
    [size()] as it was when [key] was already present. *)
Theorem insert_size b k v :
  (m_map b !! k = None → size (insert k v b) = S (size b)) ∧
  (is_Some (m_map b !! k) → size (insert k v b) = size b).
Proof.
  unfold size, insert; simpl. split.
  - intros E. by apply map_size_insert_None.
  - intros E. by apply map_size_insert_Some.
Qed.

(** C7.  After [clear()], [empty()] is true, [size()] is zero, and every
    [getValue] and [getKey] throws [std::out_of_range], whatever was present
    before. *)
Theorem clear_resets b :
  empty (clear b) = true ∧
  size (clear b) = 0 ∧
  (∀ k, getValue (clear b) k = Throws out_of_range) ∧
  (∀ v, getKey (clear b) v = Throws out_of_range).
Proof.
  split; [reflexivity|]. split; [apply map_size_empty|].
  split; intros x; [apply getValue_Throws | apply getKey_Throws];
    apply lookup_empty.
Qed.

(** C10.  When [k] is present with value [v], [erase(k)] changes neither the
    forward lookup of any other key nor the reverse lookup of any other
    value. *)
Theorem erase_frame b k v :
  m_map b !! k = Some v →
  (∀ k', k' ≠ k → getValue (erase k b) k' = getValue b k') ∧
  (∀ v', v' ≠ v → getKey (erase k b) v' = getKey b v').
Proof.
  intros E. rewrite (erase_present _ _ _ E). split.
  - intros k' Hk. unfold getValue; simpl. by rewrite lookup_delete_ne.
  - intros v' Hv. unfold getKey; simpl. by rewrite lookup_delete_ne.
Qed.

End contract.

(** ** Two inserts in a row *)
Section overwrite.
Context {K V : Type} `{Countable K, Countable V}.

Implicit Types (b : Bimap K V) (k : K) (v : V).

(** Re-binding a key: the forward entry is overwritten, the reverse entry of
    the old value stays where it was. *)
Lemma insert_insert_same_key b k v1 v2 :
  v1 ≠ v2 →
  size (insert k v2 (insert k v1 b)) = size (insert k v1 b) ∧
  getValue (insert k v2 (insert k v1 b)) k = Returns v2 ∧
  getKey (insert k v2 (insert k v1 b)) v2 = Returns k ∧
  getKey (insert k v2 (insert k v1 b)) v1 = Returns k.
Proof.
  intros Hv. repeat split.
  - unfold size, insert; simpl. apply map_size_insert_Some.
    rewrite lookup_insert_eq. by eexists.
  - apply getValue_Returns; simpl. apply lookup_insert_eq.
  - apply getKey_Returns; simpl. apply lookup_insert_eq.
  - apply getKey_Returns; simpl.
    rewrite lookup_insert_ne by done. apply lookup_insert_eq.
Qed.

(** Handing a second key the value of the first: the reverse entry moves to
    the second key, the forward entry of the first stays. *)
Lemma insert_insert_same_value b k1 k2 v :
  k1 ≠ k2 →
  getKey (insert k2 v (insert k1 v b)) v = Returns k2 ∧
  getValue (insert k2 v (insert k1 v b)) k2 = Returns v ∧
  getValue (insert k2 v (insert k1 v b)) k1 = Returns v.
Proof.
  intros Hk. repeat split.
  - apply getKey_Returns; simpl. apply lookup_insert_eq.
  - apply getValue_Returns; simpl. apply lookup_insert_eq.
  - apply getValue_Returns; simpl.
    rewrite lookup_insert_ne by done. apply lookup_insert_eq.
Qed.

End overwrite.

(** ** Histories of inserts and erases *)
Section histories.
Context {K V : Type} `{Countable K, Countable V}.

Implicit Types (b : Bimap K V) (k : K) (v : V) (ops : list (@op K V)).






Lemma mirrored_new : mirrored (@Bimap_new K V _ _ _ _).
Proof.
  split; [|done]. intros k v; simpl. by rewrite !lookup_empty.
Qed.

Lemma mirrored_insert b k v :
  mirrored b → value_unclaimed b k v → key_unchanged b k v →
  mirrored (insert k v b).
Proof.
  intros [Hm Hs] Hfree Hkeep.
  destruct (m_map b !! k) as [v'|] eqn:E.
  - assert (v' = v) as -> by by apply Hkeep.
    assert (Er : m_mapInversed b !! v = Some k) by by apply Hm.
    unfold insert. rewrite (insert_id _ _ _ E), (insert_id _ _ _ Er).
    by split.
  - assert (Er : m_mapInversed b !! v = None).
    { destruct (m_mapInversed b !! v) as [k'|] eqn:Er; [|done].
      apply Hm in Er. pose proof (Hfree _ Er) as ->. congruence. }
    split; simpl.
    + intros k0 v0.
      destruct (decide (k = k0)) as [->|Hk], (decide (v = v0)) as [->|Hv];
        rewrite ?lookup_insert_eq, ?lookup_insert_ne by done.
      * done.
      * split; [congruence|]. intros Er0. apply Hm in Er0. congruence.
      * split; [|congruence]. intros E0. apply Hm in E0. congruence.
      * apply Hm.
    + rewrite !map_size_insert_None by done. by rewrite Hs.
Qed.

Lemma mirrored_erase b k :
  mirrored b → mirrored (erase k b).
Proof.
  intros [Hm Hs]. destruct (m_map b !! k) as [v|] eqn:E.
  2:{ by rewrite (erase_absent _ _ E). }
  rewrite (erase_present _ _ _ E).
  assert (Er : m_mapInversed b !! v = Some k) by by apply Hm.
  split; simpl.
  - intros k0 v0.
    destruct (decide (k = k0)) as [->|Hk], (decide (v = v0)) as [->|Hv];
      rewrite ?lookup_delete_eq, ?lookup_delete_ne by done.
    + done.
    + split; [done|]. intros Er0. apply Hm in Er0. congruence.
    + split; [|done]. intros E0. apply Hm in E0. congruence.
    + apply Hm.
  - rewrite !map_size_delete_Some by by eexists. by rewrite Hs.
Qed.

Lemma mirrored_history b ops :
  mirrored b → no_value_collision b ops → no_key_rebinding b ops →
  Forall mirrored (states_after b ops).
Proof.
  revert b. induction ops as [|[k v|k] ops IH]; intros b Hb Hv Hk; simpl.
  - constructor.
  - destruct Hv as [Hfree Hv], Hk as [Hkeep Hk].
    assert (mirrored (insert k v b)) by by apply mirrored_insert.
    constructor; [done|]. by apply IH.
  - simpl in Hv, Hk.
    assert (mirrored (erase k b)) by by apply mirrored_erase.
    constructor; [done|]. by apply IH.
Qed.

Lemma value_unclaimedb_sound b k v :
  value_unclaimedb b k v = true → value_unclaimed b k v.
Proof.
  unfold value_unclaimedb, value_unclaimed. intros Hall k' E.
  rewrite forallb_forall in Hall.
  specialize (Hall (k', v)). simpl in Hall.
  rewrite bool_decide_eq_true_2 in Hall by done. simpl in Hall.
  eapply bool_decide_eq_true_1, Hall.
  by apply list_elem_of_In, elem_of_map_to_list.
Qed.

Lemma key_unchangedb_sound b k v :
  key_unchangedb b k v = true → key_unchanged b k v.
Proof.
  unfold key_unchangedb, key_unchanged. intros Hc v' E. rewrite E in Hc.
  by apply bool_decide_eq_true in Hc.
Qed.

Lemma no_value_collisionb_sound b ops :
  no_value_collisionb b ops = true → no_value_collision b ops.
Proof.
  revert b. induction ops as [|[k v|k] ops IH]; intros b; simpl; [done| |].
  - intros [Hc Hrest]%andb_prop. split; [by apply value_unclaimedb_sound|].
    by apply IH.
  - apply IH.
Qed.

Lemma no_key_rebindingb_sound b ops :
  no_key_rebindingb b ops = true → no_key_rebinding b ops.
Proof.
  revert b. induction ops as [|[k v|k] ops IH]; intros b; simpl; [done| |].
  - intros [Hc Hrest]%andb_prop. split; [by apply key_unchangedb_sound|].
    by apply IH.
  - apply IH.
Qed.


End histories.

(** ** Construction from a list of pairs *)
Section construction.
Context {K V : Type} `{Countable K, Countable V}.

Implicit Types (b : Bimap K V) (k : K) (v : V) (args : list (K * V)).

Lemma Bimap_init_loop_foldl args b :
  Bimap_init_loop args b = foldl (λ b p, insert p.1 p.2 b) b args.
Proof. revert b. induction args as [|p args IH]; intros b; simpl; [done|apply IH]. Qed.

Lemma Bimap_init_loop_forward args b k :
  m_map (Bimap_init_loop args b) !! k =
  match last_value k args with
  | Some v => Some v
  | None => m_map b !! k
  end.
Proof.
  revert b. induction args as [|[k' v'] args IH]; intros b; simpl; [done|].
  rewrite IH. destruct (last_value k args) as [v|]; [done|].
  unfold insert_node, insert; simpl. case_decide as Hk.
  - subst k'. apply lookup_insert_eq.
  - by apply lookup_insert_ne.
Qed.

Lemma Bimap_init_refines args :
  Bimap_init args = construct_by_inserts args ∧
  ∀ k, getValue (Bimap_init args) k =
       match last_value k args with
       | Some v => Returns v
       | None => Throws out_of_range
       end.
Proof.
  split.
  - apply Bimap_init_loop_foldl.
  - intros k. unfold getValue, Bimap_init.
    rewrite Bimap_init_loop_forward.
    destruct (last_value k args); [done|]. simpl. by rewrite lookup_empty.
Qed.

End construction.

(** ** Traversal *)
Section traversal.
Context {K V : Type} `{Countable K, Countable V}.
Context (Kle : relation K) `{!RelDecision Kle, !PartialOrder Kle, !Total Kle}.

Implicit Types (b : Bimap K V) (m : gmap K V) (l : list (K * V)).

#[local] Instance entry_le_transitive : Transitive (entry_le (V:=V) Kle).
Proof. intros p q r. unfold entry_le. apply transitivity. Qed.

#[local] Instance entry_le_total : Total (entry_le (V:=V) Kle).
Proof. intros p q. unfold entry_le. apply total, _. Qed.

Lemma in_order_Permutation m : in_order Kle m ≡ₚ map_to_list m.
Proof. apply merge_sort_Permutation. Qed.

Lemma length_in_order m : length (in_order Kle m) = base.size m.
Proof. by rewrite in_order_Permutation, length_map_to_list. Qed.

Lemma elem_of_in_order m k v : (k, v) ∈ in_order Kle m ↔ m !! k = Some v.
Proof. rewrite in_order_Permutation. apply elem_of_map_to_list. Qed.

Lemma in_order_keys_NoDup m : NoDup (in_order Kle m).*1.
Proof. rewrite in_order_Permutation. apply NoDup_fst_map_to_list. Qed.

Lemma ascending_strict l :
  StronglySorted (entry_le Kle) l → NoDup l.*1 →
  StronglySorted (entry_lt Kle) l.
Proof.
  induction l as [|p l IH]; intros Hs Hn; [constructor|].
  apply StronglySorted_cons in Hs as [Hp Hs].
  rewrite fmap_cons in Hn. apply NoDup_cons in Hn as [Hp' Hn].
  apply StronglySorted_cons. split; [|by apply IH].
  rewrite Forall_forall in Hp |- *. intros q Hq.
  split; [by apply Hp|]. intros Hqp. apply Hp'.
  assert (p.1 = q.1) as -> by (apply (anti_symm Kle); [by apply Hp|done]).
  by apply list_elem_of_fmap_2.
Qed.

Lemma in_order_ascending m : StronglySorted (entry_lt Kle) (in_order Kle m).
Proof.
  apply ascending_strict; [|apply in_order_keys_NoDup].
  apply StronglySorted_merge_sort; apply _.
Qed.

Lemma reverse_descending {A} (R : relation A) (l : list A) :
  StronglySorted R l → StronglySorted (flip R) (reverse l).
Proof.
  induction 1 as [|x l Hl IH Hx]; [constructor|].
  rewrite reverse_cons. apply StronglySorted_app. repeat split.
  - intros y z Hy ->%list_elem_of_singleton.
    rewrite Forall_forall in Hx. apply Hx. by apply elem_of_reverse.
  - done.
  - repeat constructor.
Qed.

(** The loop from any position up to [end()] visits the rest of the
    ordered entries, once the fuel covers them. *)
Lemma walk_drop fuel b i :
  i ≤ size b → size b - i ≤ fuel →
  walk Kle fuel b (mkIterator i) (end_ b) = drop i (in_order Kle (m_map b)).
Proof.
  unfold size, end_. revert i.
  induction fuel as [|fuel IH]; intros i Hi Hf; simpl.
  - rewrite drop_ge; [done|]. rewrite length_in_order. lia.
  - case_decide as Hend.
    + inversion Hend; subst i. rewrite drop_ge; [done|].
      by rewrite length_in_order.
    + assert (i < base.size (m_map b)) as Hlt.
      { destruct (decide (i = base.size (m_map b))); [by subst|lia]. }
      unfold deref; simpl.
      destruct (in_order Kle (m_map b) !! i) as [p|] eqn:E.
      * rewrite (drop_S _ _ _ E). f_equal. unfold incr; simpl.
        apply IH; lia.
      * apply lookup_ge_None in E. rewrite length_in_order in E. lia.
Qed.

(** The reverse loop from any position down to [rend()] visits the entries
    before it, last first. *)
Lemma rwalk_take fuel b i :
  i ≤ size b → i ≤ fuel →
  rwalk Kle fuel b (mkReverse (mkIterator i)) (rend b) =
  reverse (take i (in_order Kle (m_map b))).
Proof.
  unfold size, rend, begin. revert i.
  induction fuel as [|fuel IH]; intros i Hi Hf; simpl.
  - assert (i = 0) as -> by lia. done.
  - case_decide as Hend.
    + inversion Hend; subst i. done.
    + destruct i as [|n]; [done|].
      unfold rderef; simpl.
      destruct (in_order Kle (m_map b) !! n) as [p|] eqn:E.
      * rewrite (take_S_r _ _ _ E), reverse_snoc. f_equal.
        unfold rincr; simpl. apply IH; lia.
      * apply lookup_ge_None in E. rewrite length_in_order in E. lia.
Qed.

(** C9.  Whatever the container holds, the loop from [begin()] to [end()]
    visits exactly the pairs [(k, getValue(k))] of the forward map, each once,
    in strictly ascending key order; the loop from [rbegin()] to [rend()]
    visits the same pairs in the opposite, strictly descending, order; and
    [begin()] equals [end()] exactly when the container is empty.  The
    loops are stated for any fuel that covers [size()] rounds. *)
Theorem traversal_in_key_order b fuel :
  size b ≤ fuel →
  (∀ k v, (k, v) ∈ walk Kle fuel b (begin b) (end_ b) ↔
          getValue b k = Returns v) ∧
  length (walk Kle fuel b (begin b) (end_ b)) = size b ∧
  StronglySorted (entry_lt Kle) (walk Kle fuel b (begin b) (end_ b)) ∧
  rwalk Kle fuel b (rbegin b) (rend b) =
    reverse (walk Kle fuel b (begin b) (end_ b)) ∧
  StronglySorted (flip (entry_lt Kle)) (rwalk Kle fuel b (rbegin b) (rend b)) ∧
  (empty b = true ↔ begin b = end_ b).
Proof.
  intros Hf.
  assert (Hw : walk Kle fuel b (begin b) (end_ b) = in_order Kle (m_map b)).
  { unfold begin. rewrite walk_drop by lia. done. }
  assert (Hr : rwalk Kle fuel b (rbegin b) (rend b) =
               reverse (in_order Kle (m_map b))).
  { unfold rbegin, end_. rewrite rwalk_take by done.
    by rewrite <- (length_in_order (m_map b)), firstn_all. }
  rewrite Hw, Hr. repeat split.
  - intros Hin. by apply getValue_Returns, elem_of_in_order.
  - intros Hg. by apply elem_of_in_order, getValue_Returns.
  - apply length_in_order.
  - apply in_order_ascending.
  - apply reverse_descending, in_order_ascending.
  - unfold empty, begin, end_. intros Hb%bool_decide_eq_true. by rewrite Hb.
  - unfold empty, begin, end_. intros [= Hb]. by apply bool_decide_eq_true.
Qed.

End traversal.

(** ** How [insert], [erase], [empty] and [size] compose *)
Section algebra.
Context {K V : Type} `{Countable K, Countable V}.

Implicit Types (b : Bimap K V) (k : K) (v : V).

Lemma Bimap_eta b : mkBimap (m_map b) (m_mapInversed b) = b.
Proof. by destruct b. Qed.

Lemma erase_forward_other b k k' :
  k' ≠ k → m_map (erase k b) !! k' = m_map b !! k'.
Proof.
  intros Hk. unfold erase. destruct (m_map b !! k); simpl; [|done].
  by apply lookup_delete_ne.
Qed.

Lemma insert_values_lookup b k v :
  getValue (insert k v b) k = Returns v ∧
  getKey (insert k v b) v = Returns k ∧
  empty (insert k v b) = false ∧
  0 < size (insert k v b).
Proof.
  assert (Hpos : base.size (<[k:=v]> (m_map b)) ≠ 0).
  { apply map_size_non_empty_iff, insert_non_empty. }
  split; [apply getValue_Returns, lookup_insert_eq|].
  split; [apply getKey_Returns, lookup_insert_eq|].
  unfold empty, size; simpl. split; [by apply bool_decide_eq_false|lia].
Qed.

(** X2.  [insert(k, v)] changes the forward lookup of no key but [k] and the
    reverse lookup of no value but [v]. *)
Theorem insert_frame b k v :
  (∀ k', k' ≠ k → getValue (insert k v b) k' = getValue b k') ∧
  (∀ v', v' ≠ v → getKey (insert k v b) v' = getKey b v').
Proof.
  split.
  - intros k' Hk. unfold getValue; simpl. by rewrite lookup_insert_ne.
  - intros v' Hv. unfold getKey; simpl. by rewrite lookup_insert_ne.
Qed.

Lemma insert_values_twice_and_swap b k v :
  insert k v (insert k v b) = insert k v b ∧
  (∀ k2 v2, k ≠ k2 → v ≠ v2 →
     insert k v (insert k2 v2 b) = insert k2 v2 (insert k v b)).
Proof.
  unfold insert; simpl. split.
  - by rewrite !insert_insert_eq.
  - intros k2 v2 Hk Hv. f_equal; by apply insert_insert_ne.
Qed.

(** X4.  [empty()] is true exactly when [size()] is zero, and exactly when
    [getValue] throws for every key; it is false exactly when some key has
    a value. *)
Theorem empty_iff b :
  (empty b = true ↔ size b = 0) ∧
  (empty b = true ↔ ∀ k, getValue b k = Throws out_of_range) ∧
  (empty b = false ↔ ∃ k v, getValue b k = Returns v).
Proof.
  assert (Hall : base.size (m_map b) = 0 ↔
                 ∀ k, getValue b k = Throws out_of_range).
  { rewrite map_size_empty_iff, map_empty.
    split; intros Hm k.
    - by apply getValue_Throws.
    - by apply (getValue_Throws b k out_of_range). }
  unfold empty, size. split; [apply bool_decide_eq_true|].
  split; [by rewrite bool_decide_eq_true|].
  rewrite bool_decide_eq_false, map_size_ne_0_lookup.
  split; intros [k Hk].
  - destruct Hk as [v Hv]. exists k, v. by apply getValue_Returns.
  - destruct Hk as [v Hv]. exists k, v. by apply getValue_Returns.
Qed.

(** X5.  [erase(k)] lowers [size()] by exactly one when [k] is present and
    leaves it as it was when [k] is absent. *)
Theorem erase_size b k :
  (is_Some (m_map b !! k) → S (size (erase k b)) = size b) ∧
  (m_map b !! k = None → size (erase k b) = size b).
Proof.
  split.
  - intros [v E]. rewrite (erase_present _ _ _ E). unfold size; simpl.
    rewrite map_size_delete_Some by by eexists.
    assert (base.size (m_map b) ≠ 0); [|lia].
    apply map_size_ne_0_lookup. by exists k, v.
  - intros E. by rewrite (erase_absent _ _ E).
Qed.

(** X6.  [erase(k)] undoes an [insert(k, v)] whose key and value were both
    new to the container; [insert(k, v)] undoes an [erase(k)] when the
    container held [v] for [k] and [k] for [v]. *)
Theorem insert_erase_undo b k v :
  (m_map b !! k = None → m_mapInversed b !! v = None →
   erase k (insert k v b) = b) ∧
  (m_map b !! k = Some v → m_mapInversed b !! v = Some k →
   insert k v (erase k b) = b).
Proof.
  split.
  - intros Ek Ev.
    rewrite (erase_present _ k v) by apply lookup_insert_eq. simpl.
    rewrite !delete_insert_id by done. apply Bimap_eta.
  - intros Ek Ev. rewrite (erase_present _ _ _ Ek). unfold insert; simpl.
    rewrite !insert_delete_id by done. apply Bimap_eta.
Qed.

(** X7.  Two erases can be swapped, whatever the container holds. *)
Theorem erase_swap b k1 k2 :
  erase k1 (erase k2 b) = erase k2 (erase k1 b).
Proof.
  destruct (decide (k1 = k2)) as [->|Hk]; [done|].
  unfold erase at 1 3.
  rewrite (erase_forward_other b k2 k1), (erase_forward_other b k1 k2) by done.
  unfold erase.
  destruct (m_map b !! k1) as [v1|], (m_map b !! k2) as [v2|]; simpl;
    try done.
  f_equal; apply delete_delete.
Qed.

End algebra.

(** ** More on histories *)
Section more_histories.
Context {K V : Type} `{Countable K, Countable V}.

Implicit Types (b : Bimap K V) (k : K) (v : V) (ops : list (@op K V)).

Lemma erase_forward_lookup b k k' :
  m_map (erase k' b) !! k = if decide (k' = k) then None else m_map b !! k.
Proof.
  case_decide as Hk.
  - subst k'. apply erase_forward_gone.
  - apply erase_forward_other. congruence.
Qed.

Lemma run_forward_lookup b ops k :
  m_map (run b ops) !! k = binding_after k ops (m_map b !! k).
Proof.
  unfold run. revert b.
  induction ops as [|[k' v|k'] ops IH]; intros b; simpl; [done| |].
  - rewrite IH. simpl. by rewrite lookup_insert.
  - rewrite IH. by rewrite erase_forward_lookup.
Qed.

(** X8.  After any history, from any container, [getValue(k)] is decided by
    the calls that name [k] alone: it returns the value of the last
    [insert(k, _)] unless an [erase(k)] came after it, and what [k] had at
    the start when no call names [k]; calls on other keys, colliding values
    included, do not change it. *)
Theorem getValue_after_history b ops k :
  getValue (run b ops) k =
  match binding_after k ops (m_map b !! k) with
  | Some v => Returns v
  | None => Throws out_of_range
  end.
Proof. unfold getValue. by rewrite run_forward_lookup. Qed.

Lemma run_snoc b ops o : run b (ops ++ [o]) = apply_op (run b ops) o.
Proof. unfold run. by rewrite foldl_app. Qed.

Lemma members_come_from_inserts ops :
  (∀ k v, m_map (run (@Bimap_new K V _ _ _ _) ops) !! k = Some v →
          Insert k v ∈ ops) ∧
  (∀ v k, m_mapInversed (run (@Bimap_new K V _ _ _ _) ops) !! v = Some k →
          Insert k v ∈ ops).
Proof.
  induction ops as [|o ops [IHf IHr]] using rev_ind.
  { split; intros ? ? E; simpl in E; by rewrite lookup_empty in E. }
  rewrite run_snoc. set (b := run Bimap_new ops) in *.
  destruct o as [k0 v0|k0]; simpl.
  - split.
    + intros k v. rewrite lookup_insert. case_decide as Hk.
      * intros [= ->]. subst. apply elem_of_app. right. by left.
      * intros E. apply elem_of_app. left. by apply IHf.
    + intros v k. rewrite lookup_insert. case_decide as Hv.
      * intros [= ->]. subst. apply elem_of_app. right. by left.
      * intros E. apply elem_of_app. left. by apply IHr.
  - unfold erase. destruct (m_map b !! k0) as [v0|] eqn:E0; simpl.
    + split.
      * intros k v [_ E]%lookup_delete_Some.
        apply elem_of_app. left. by apply IHf.
      * intros v k [_ E]%lookup_delete_Some.
        apply elem_of_app. left. by apply IHr.
    + split; intros ? ? E; apply elem_of_app; left; auto.
Qed.

(** X10.  From a container whose two maps mirror each other (the empty one
    does), over a history in which no insert hands a key the value of
    another key and none re-binds a present key to another value: after
    each operation [getValue(k)] returns [v] exactly when [getKey(v)]
    returns [k], so no reverse entry is stale either. *)
Theorem lookups_inverse_of_each_other b ops :
  mirrored b → no_value_collision b ops → no_key_rebinding b ops →
  Forall (λ b', ∀ k v, getValue b' k = Returns v ↔ getKey b' v = Returns k)
         (states_after b ops).
Proof.
  intros Hb Hv Hk.
  eapply Forall_impl; [by apply mirrored_history|].
  intros b' [Hm _] k v. rewrite getValue_Returns, getKey_Returns. apply Hm.
Qed.

End more_histories.

(** ** More on construction from a list *)
Section more_construction.
Context {K V : Type} `{Countable K, Countable V}.

Implicit Types (b : Bimap K V) (k : K) (v : V) (args : list (K * V)).

Lemma Bimap_init_loop_reverse args b v :
  m_mapInversed (Bimap_init_loop args b) !! v =
  match last_key v args with
  | Some k => Some k
  | None => m_mapInversed b !! v
  end.
Proof.
  revert b. induction args as [|[k' v'] args IH]; intros b; simpl; [done|].
  rewrite IH. destruct (last_key v args) as [k|]; [done|].
  unfold insert_node, insert; simpl. case_decide as Hv.
  - subst v'. apply lookup_insert_eq.
  - by apply lookup_insert_ne.
Qed.

(** X11.  After construction from a list, [getKey(v)] returns the key of the
    last pair of the list whose value is [v], and throws when no pair has
    that value. *)
Theorem getKey_after_construction args v :
  getKey (Bimap_init args) v =
  match last_key v args with
  | Some k => Returns k
  | None => Throws out_of_range
  end.
Proof.
  unfold getKey, Bimap_init. rewrite Bimap_init_loop_reverse.
  destruct (last_key v args); [done|]. simpl. by rewrite lookup_empty.
Qed.

Lemma Bimap_init_loop_dom args b :
  dom (m_map (Bimap_init_loop args b)) =
    list_to_set args.*1 ∪ dom (m_map b) ∧
  dom (m_mapInversed (Bimap_init_loop args b)) =
    list_to_set args.*2 ∪ dom (m_mapInversed b).
Proof.
  revert b. induction args as [|[k v] args IH]; intros b; simpl.
  - by rewrite !(left_id_L ∅ (∪)).
  - destruct (IH (insert_node (k, v) b)) as [-> ->]. simpl.
    rewrite !dom_insert_L. split.
    + by rewrite (assoc_L (∪)), (comm_L (∪) (list_to_set _) {[k]}).
    + by rewrite (assoc_L (∪)), (comm_L (∪) (list_to_set _) {[v]}).
Qed.

Lemma size_list_to_set_remove_dups `{Countable A} (l : list A) :
  base.size (list_to_set l : gset A) = length (remove_dups l).
Proof.
  rewrite <- (size_list_to_set (C:=gset A) (remove_dups l))
    by apply NoDup_remove_dups.
  f_equal. apply set_eq. intros x.
  by rewrite !elem_of_list_to_set, elem_of_remove_dups.
Qed.

Lemma remove_dups_NoDup `{EqDecision A} (l : list A) :
  NoDup l → remove_dups l = l.
Proof.
  induction 1 as [|x l Hx Hl IH]; simpl; [done|].
  case_decide; [done|]. by rewrite IH.
Qed.

Lemma length_remove_dups_le `{EqDecision A} (l : list A) :
  length (remove_dups l) ≤ length l.
Proof.
  apply submseteq_length, NoDup_submseteq; [apply NoDup_remove_dups|].
  intros x. by rewrite elem_of_remove_dups.
Qed.

(** X12.  After construction from a list, [size()] is the number of distinct
    keys of the list, the reverse map has as many entries as the list has
    distinct values, and neither exceeds the length of the list. *)
Theorem size_after_construction args :
  size (Bimap_init args) = length (remove_dups args.*1) ∧
  base.size (m_mapInversed (Bimap_init args)) = length (remove_dups args.*2) ∧
  size (Bimap_init args) ≤ length args ∧
  base.size (m_mapInversed (Bimap_init args)) ≤ length args.
Proof.
  destruct (Bimap_init_loop_dom args members_default) as [Hf Hr].
  simpl in Hf, Hr.
  rewrite dom_empty_L, (right_id_L ∅ (∪)) in Hf.
  rewrite dom_empty_L, (right_id_L ∅ (∪)) in Hr.
  assert (Sf : size (Bimap_init args) = length (remove_dups args.*1)).
  { unfold size, Bimap_init.
    by rewrite <- size_dom, Hf, size_list_to_set_remove_dups. }
  assert (Sr : base.size (m_mapInversed (Bimap_init args)) =
               length (remove_dups args.*2)).
  { unfold Bimap_init.
    by rewrite <- size_dom, Hr, size_list_to_set_remove_dups. }
  split; [done|]. split; [done|]. rewrite Sf, Sr. split.
  - etrans; [apply length_remove_dups_le|]. by rewrite length_fmap.
  - etrans; [apply length_remove_dups_le|]. by rewrite length_fmap.
Qed.

Lemma last_value_elem args k v :
  last_value k args = Some v → (k, v) ∈ args.
Proof.
  induction args as [|[k' v'] args IH]; simpl; [done|].
  destruct (last_value k args) as [w|].
  - intros [= ->]. right. by apply IH.
  - case_decide; [|done]. intros [= ->]. subst. by left.
Qed.

Lemma last_value_None args k :
  k ∉ args.*1 → last_value k args = None.
Proof.
  induction args as [|[k' v'] args IH]; simpl; [done|].
  intros [Hne Hk]%not_elem_of_cons. rewrite IH by done.
  case_decide; [congruence|done].
Qed.

Lemma last_value_NoDup args k v :
  NoDup args.*1 → (k, v) ∈ args → last_value k args = Some v.
Proof.
  induction args as [|[k' v'] args IH]; simpl; [by intros _ ?%elem_of_nil|].
  intros [Hk' Hn]%NoDup_cons [[= -> ->]|Hin]%elem_of_cons.
  - rewrite last_value_None by done. by rewrite decide_True.
  - by rewrite IH.
Qed.

Lemma last_key_elem args k v :
  last_key v args = Some k → (k, v) ∈ args.
Proof.
  induction args as [|[k' v'] args IH]; simpl; [done|].
  destruct (last_key v args) as [w|].
  - intros [= ->]. right. by apply IH.
  - case_decide; [|done]. intros [= ->]. subst. by left.
Qed.

Lemma last_key_None args v :
  v ∉ args.*2 → last_key v args = None.
Proof.
  induction args as [|[k' v'] args IH]; simpl; [done|].
  intros [Hne Hv]%not_elem_of_cons. rewrite IH by done.
  case_decide; [congruence|done].
Qed.

Lemma last_key_NoDup args k v :
  NoDup args.*2 → (k, v) ∈ args → last_key v args = Some k.
Proof.
  induction args as [|[k' v'] args IH]; simpl; [by intros _ ?%elem_of_nil|].
  intros [Hv' Hn]%NoDup_cons [[= -> ->]|Hin]%elem_of_cons.
  - rewrite last_key_None by done. by rewrite decide_True.
  - by rewrite IH.
Qed.

(** X13.  Construction from a list whose keys are pairwise distinct and
    whose values are pairwise distinct gives a container of exactly the
    pairs of the list: [size()] is the length of the list, [getValue(k)]
    returns [v] exactly when [(k, v)] is in the list, and so does
    [getKey(v)] return [k]. *)
Theorem construction_from_distinct_pairs args :
  NoDup args.*1 → NoDup args.*2 →
  size (Bimap_init args) = length args ∧
  (∀ k v, getValue (Bimap_init args) k = Returns v ↔ (k, v) ∈ args) ∧
  (∀ k v, getKey (Bimap_init args) v = Returns k ↔ (k, v) ∈ args).
Proof.
  intros Hk Hv. split; [|split].
  - destruct (size_after_construction args) as [-> _].
    by rewrite remove_dups_NoDup, length_fmap.
  - intros k v. destruct (Bimap_init_refines args) as [_ ->]. split.
    + destruct (last_value k args) as [w|] eqn:E; [|done].
      intros [= ->]. by apply last_value_elem.
    + intros Hin. by rewrite (last_value_NoDup _ _ _ Hk Hin).
  - intros k v. rewrite getKey_after_construction. split.
    + destruct (last_key v args) as [w|] eqn:E; [|done].
      intros [= ->]. by apply last_key_elem.
    + intros Hin. by rewrite (last_key_NoDup _ _ _ Hv Hin).
Qed.

End more_construction.

(** ** More on traversal *)
Section more_traversal.
Context {K V : Type} `{Countable K, Countable V}.
Context (Kle : relation K) `{!RelDecision Kle, !PartialOrder Kle, !Total Kle}.

Implicit Types (b : Bimap K V) (m : gmap K V) (l : list (K * V)) (k : K) (v : V).

Lemma walk_all b fuel :
  size b ≤ fuel →
  walk Kle fuel b (begin b) (end_ b) = in_order Kle (m_map b).
Proof. intros Hf. unfold begin. by rewrite walk_drop by lia. Qed.

Lemma key_trichotomy (k k' : K) :
  k ≠ k' → strict Kle k' k ∨ strict Kle k k'.
Proof.
  intros Hne. destruct (total Kle k' k) as [Hle|Hle].
  - left. split; [done|]. intros Hge. by destruct Hne; apply (anti_symm Kle).
  - right. split; [done|]. intros Hge. by destruct Hne; apply (anti_symm Kle).
Qed.

Lemma entry_lt_asymmetric (p q : K * V) :
  entry_lt Kle p q → entry_lt Kle q p → False.
Proof. intros [Hpq Hnqp] [Hqp _]. by apply Hnqp. Qed.

Lemma ascending_NoDup l : StronglySorted (entry_lt Kle) l → NoDup l.
Proof.
  induction 1 as [|p l Hl IH Hp]; constructor; [|done].
  intros Hin. rewrite Forall_forall in Hp.
  by apply (entry_lt_asymmetric p p); apply Hp.
Qed.

Lemma ascending_filter (P : K * V → Prop) `{!∀ p, Decision (P p)} l :
  StronglySorted (entry_lt Kle) l → StronglySorted (entry_lt Kle) (filter P l).
Proof.
  induction 1 as [|p l Hl IH Hp]; [constructor|].
  rewrite filter_cons. case_decide; [|done].
  constructor; [done|]. rewrite Forall_forall in Hp |- *.
  intros q [_ Hq]%list_elem_of_filter. by apply Hp.
Qed.

(** The ordered entries of a map are the one strictly ascending list that
    holds exactly its pairs. *)
Lemma in_order_unique m l :
  StronglySorted (entry_lt Kle) l →
  (∀ k v, (k, v) ∈ l ↔ m !! k = Some v) →
  l = in_order Kle m.
Proof.
  intros Hs Hin.
  apply (StronglySorted_unique_strong (entry_lt Kle)); [|done| |].
  - intros p q _ _ Hpq Hqp. by destruct (entry_lt_asymmetric p q).
  - apply in_order_ascending; apply _.
  - apply NoDup_Permutation.
    + by apply ascending_NoDup.
    + apply ascending_NoDup, in_order_ascending; apply _.
    + intros [k v]. by rewrite Hin, elem_of_in_order.
Qed.

(** X14.  [erase(k)] takes the pair of [k], if any, out of the traversal
    and leaves the other pairs where they were, in the same order. *)
Theorem traversal_after_erase b k fuel :
  size b ≤ fuel →
  walk Kle fuel (erase k b) (begin (erase k b)) (end_ (erase k b)) =
  filter (λ p, p.1 ≠ k) (walk Kle fuel b (begin b) (end_ b)).
Proof.
  intros Hf. rewrite (walk_all b) by done.
  rewrite walk_all.
  2:{ destruct (m_map b !! k) as [v|] eqn:E.
      - destruct (erase_size b k) as [Hs _].
        specialize (Hs (ltac:(by eexists))). lia.
      - by rewrite (erase_absent _ _ E). }
  symmetry. apply in_order_unique.
  - apply ascending_filter, in_order_ascending; apply _.
  - intros k' v'. rewrite list_elem_of_filter, elem_of_in_order; simpl.
    rewrite erase_forward_lookup. case_decide as Hk.
    + subst k'. split; [by intros [? _]|done].
    + split; [by intros [_ ?]|]. intros E. split; [congruence|done].
Qed.

(** X15.  [insert(k, v)] puts [(k, v)] into the traversal at the place of
    [k] in the key order: the pairs with a smaller key come first, in their
    old order, then [(k, v)], then the pairs with a greater key; a pair that
    [k] had before is replaced. *)
Theorem traversal_after_insert b k v fuel :
  S (size b) ≤ fuel →
  walk Kle fuel (insert k v b) (begin (insert k v b)) (end_ (insert k v b)) =
  filter (λ p, strict Kle p.1 k) (walk Kle fuel b (begin b) (end_ b)) ++
  (k, v) :: filter (λ p, strict Kle k p.1) (walk Kle fuel b (begin b) (end_ b)).
Proof.
  intros Hf. rewrite (walk_all b) by lia.
  rewrite walk_all.
  2:{ unfold size in *; simpl. rewrite map_size_insert.
      destruct (m_map b !! k); simpl; lia. }
  pose proof (in_order_ascending Kle (m_map b)) as Hs.
  symmetry. apply in_order_unique.
  - apply StronglySorted_app. split; [|split].
    + intros p q [Hp _]%list_elem_of_filter Hq. simpl in Hp.
      apply elem_of_cons in Hq as [->|[Hq _]%list_elem_of_filter]; [done|].
      simpl in Hq. unfold entry_lt. by etrans.
    + by apply ascending_filter.
    + constructor; [by apply ascending_filter|].
      apply Forall_forall. by intros q [Hq _]%list_elem_of_filter.
  - intros k' v'.
    rewrite elem_of_app, elem_of_cons, !list_elem_of_filter,
      !elem_of_in_order; simpl.
    rewrite lookup_insert. case_decide as Hk.
    + subst k'. split.
      * intros [[[_ Hirr] _]|[[= ->]|[[_ Hirr] _]]]; [|done|];
          by destruct Hirr.
      * intros [= ->]. right. by left.
    + split.
      * intros [[_ E]|[[= -> ->]|[_ E]]]; done.
      * intros E. destruct (key_trichotomy k k' Hk) as [Hlt|Hgt]; auto.
Qed.

(** X16.  [*begin()] is the pair with the least key and [*rbegin()] the pair
    with the greatest key of the container; both are pairs the container
    holds, and both exist exactly when the container is not empty. *)
Theorem begin_least_rbegin_greatest b :
  (∀ p, deref Kle b (begin b) = Some p →
        getValue b p.1 = Returns p.2 ∧
        ∀ k v, getValue b k = Returns v → Kle p.1 k) ∧
  (∀ p, rderef Kle b (rbegin b) = Some p →
        getValue b p.1 = Returns p.2 ∧
        ∀ k v, getValue b k = Returns v → Kle k p.1) ∧
  (empty b = false ↔ is_Some (deref Kle b (begin b))) ∧
  (empty b = false ↔ is_Some (rderef Kle b (rbegin b))).
Proof.
  pose proof (in_order_ascending Kle (m_map b)) as Hs.
  pose proof (length_in_order Kle (m_map b)) as Hlen.
  unfold deref, rderef, begin, rbegin, end_, empty; simpl.
  split; [|split; [|split]].
  - intros [k0 v0] E. split.
    { apply getValue_Returns, (elem_of_in_order Kle).
      by apply list_elem_of_lookup_2 in E. }
    intros k v Hg. apply getValue_Returns, (elem_of_in_order Kle) in Hg.
    destruct (in_order Kle (m_map b)) as [|q l]; [done|].
    simpl in E. injection E as ->.
    apply StronglySorted_cons in Hs as [Hq _]. rewrite Forall_forall in Hq.
    apply elem_of_cons in Hg as [[= -> ->]|Hg]; [done|].
    by destruct (Hq _ Hg).
  - intros [k0 v0]. destruct (base.size (m_map b)) as [|n] eqn:En; [done|].
    intros E. split.
    { apply getValue_Returns, (elem_of_in_order Kle).
      by apply list_elem_of_lookup_2 in E. }
    intros k v Hg. apply getValue_Returns, (elem_of_in_order Kle) in Hg.
    assert (Hl : in_order Kle (m_map b) =
                 take n (in_order Kle (m_map b)) ++ [(k0, v0)]).
    { rewrite <- (take_S_r _ _ _ E), <- Hlen. by rewrite firstn_all. }
    rewrite Hl in Hs, Hg.
    apply elem_of_app in Hg as [Hg|Hg%list_elem_of_singleton].
    + assert (entry_lt Kle (k, v) (k0, v0)) as [Hle _]; [|done].
      eapply StronglySorted_app_1_elem_of; [exact Hs|done|by left].
    + by injection Hg as -> ->.
  - rewrite bool_decide_eq_false, <- Hlen.
    destruct (in_order Kle (m_map b)) as [|q l]; simpl.
    + split; [done|]. by intros [? ?].
    + split; [by eexists|done].
  - rewrite bool_decide_eq_false.
    destruct (base.size (m_map b)) as [|n] eqn:En.
    + split; [done|]. by intros [? ?].
    + split; [|done]. intros _. apply lookup_lt_is_Some. lia.
Qed.

Lemma iter_incr n i : Nat.iter n incr (mkIterator i) = mkIterator (n + i).
Proof. induction n as [|n IH]; simpl; [done|]. by rewrite IH. Qed.

Lemma iter_rincr n i :
  Nat.iter n rincr (mkReverse (mkIterator i)) = mkReverse (mkIterator (i - n)).
Proof.
  induction n as [|n IH]; simpl.
  - by rewrite Nat.sub_0_r.
  - rewrite IH. unfold rincr; simpl. do 2 f_equal. lia.
Qed.

(** X17.  The const iterators span the container: [size()] increments take
    [cbegin()] to [cend()] and [crbegin()] to [crend()]; before that a
    forward iterator differs from [cend()] and designates a pair, and the
    pair it designates after [n] increments is the one the reverse iterator
    designates after [size() - 1 - n] increments. *)
Theorem const_iterators_span b :
  Nat.iter (size b) incr (cbegin b) = cend b ∧
  Nat.iter (size b) rincr (crbegin b) = crend b ∧
  ∀ n, n < size b →
    Nat.iter n incr (cbegin b) ≠ cend b ∧
    Nat.iter n rincr (crbegin b) ≠ crend b ∧
    ∃ p, deref Kle b (Nat.iter n incr (cbegin b)) = Some p ∧
         rderef Kle b (Nat.iter (size b - S n) rincr (crbegin b)) = Some p.
Proof.
  unfold cbegin, cend, crbegin, crend, cend, cbegin, size.
  rewrite iter_incr, iter_rincr, Nat.add_0_r, Nat.sub_diag.
  split; [done|]. split; [done|]. intros n Hn.
  rewrite !iter_incr, !iter_rincr, Nat.add_0_r.
  split; [intros [= ?]; lia|]. split; [intros [= ?]; lia|].
  destruct (lookup_lt_is_Some_2 (in_order Kle (m_map b)) n) as [p E].
  { rewrite length_in_order. lia. }
  exists p. unfold deref, rderef; simpl. split; [done|].
  replace (base.size (m_map b) - (base.size (m_map b) - S n)) with (S n)
    by lia.
  done.
Qed.

End more_traversal.

(** ** Calls with their arguments taken by reference *)
Section by_reference.
Context {K V : Type} `{Countable K, Countable V}.

Implicit Types (b : Bimap K V) (k : K) (v : V).
Implicit Types (key : Bimap K V → K) (value : Bimap K V → V).
Implicit Types (calls : list (@rcall K V _ _ _ _)).

(** The forward map never depends on how the arguments are passed. *)
Lemma insert_ref_forward key value b :
  m_map (insert_ref key value b) = m_map (insert (key b) (value b) b).
Proof. done. Qed.

(** With both arguments left alone by the first statement, the call acts on
    the two values read on entry. *)
Lemma insert_ref_kept key value b :
  arguments_kept key value b →
  insert_ref key value b = insert (key b) (value b) b.
Proof.
  unfold arguments_kept, survives, insert_ref. intros [-> ->]. done.
Qed.

Lemma object_survives {T : Type} (x : T) key value b :
  survives (object x) key value b.
Proof. done. Qed.

Lemma getKey_ref_survives v0 was key value b :
  survives (getKey_ref v0 was) key value b.
Proof. done. Qed.

Lemma getValue_ref_survives_as_value k0 was key b :
  survives (getValue_ref k0 was) key (getValue_ref k0 was) b.
Proof.
  unfold survives, getValue_ref, forward_assigned; simpl.
  rewrite lookup_insert. case_decide as Hk; [|done].
  subst k0. done.
Qed.

Lemma erase_forward_map b k : m_map (erase k b) = delete k (m_map b).
Proof.
  unfold erase. destruct (m_map b !! k) eqn:E; simpl; [done|].
  by rewrite delete_id.
Qed.


Lemma run_refs_values b calls :
  arguments_survive b calls →
  run_refs b calls = run b (values_read b calls).
Proof.
  unfold run_refs, run. revert b.
  induction calls as [|[key value|key] calls IH]; intros b; simpl; [done| |].
  - intros [Hkept Hrest]. rewrite <- (insert_ref_kept _ _ _ Hkept).
    by apply IH.
  - intros Hrest. by apply IH.
Qed.

Lemma run_refs_forward b b' calls :
  m_map b = m_map b' →
  m_map (run_refs b calls) = m_map (run b' (values_read b calls)).
Proof.
  unfold run_refs, run. revert b b'.
  induction calls as [|[key value|key] calls IH]; intros b b' E; simpl;
    [done| |].
  - apply IH. simpl. by rewrite E.
  - apply IH. by rewrite !erase_forward_map, E.
Qed.



(** X1.  Right after [insert(key, value)], the arguments taken by reference
    and whatever the container held: [getValue] of the key read on entry
    returns the value read on entry, and the container is not empty; the
    reverse entry written is the pair the parameters read after the first
    statement, so [getKey] of that value returns that key whenever the
    first statement leaves what the parameters designate alone. *)
Theorem insert_then_lookup b key value :
  getValue (insert_ref key value b) (key b) = Returns (value b) ∧
  empty (insert_ref key value b) = false ∧
  0 < size (insert_ref key value b) ∧
  getKey (insert_ref key value b) (value (forward_assigned key value b)) =
    Returns (key (forward_assigned key value b)) ∧
  (arguments_kept key value b →
   getKey (insert_ref key value b) (value b) = Returns (key b)).
Proof.
  destruct (insert_values_lookup b (key b) (value b)) as (Hg & Hk & He & Hs).
  split; [exact Hg|]. split; [exact He|]. split; [exact Hs|].
  split; [apply getKey_Returns; simpl; apply lookup_insert_eq|].
  intros Hkept. by rewrite (insert_ref_kept _ _ _ Hkept).
Qed.

(** X3.  With arguments that are objects the container does not hold,
    inserting the same pair twice is inserting it once, and two inserts
    that differ in both key and value can be swapped. *)
Theorem insert_twice_and_swap b k v :
  insert_ref (object k) (object v) (insert_ref (object k) (object v) b) =
    insert_ref (object k) (object v) b ∧
  (∀ k2 v2, k ≠ k2 → v ≠ v2 →
     insert_ref (object k) (object v) (insert_ref (object k2) (object v2) b) =
     insert_ref (object k2) (object v2) (insert_ref (object k) (object v) b)).
Proof. exact (insert_values_twice_and_swap b k v). Qed.

(** X9.  After any history from the empty bimap, the arguments taken by
    reference: a [getValue(k)] that returns [v] goes back to an insert of
    that history that read [k] and [v] through its parameters on entry; so
    does a [getKey(v)] that returns [k], when no insert of the history
    overwrote, by its first statement, what its own parameters designate. *)
Theorem lookups_come_from_inserts calls k v :
  (getValue (run_refs Bimap_new calls) k = Returns v →
   Insert k v ∈ values_read Bimap_new calls) ∧
  (arguments_survive Bimap_new calls →
   getKey (run_refs Bimap_new calls) v = Returns k →
   Insert k v ∈ values_read Bimap_new calls).
Proof.
  destruct (members_come_from_inserts (values_read Bimap_new calls))
    as [Hf Hr].
  split.
  - intros E. apply Hf. rewrite <- (run_refs_forward Bimap_new) by done.
    by apply getValue_Returns.
  - intros Ha E. apply Hr. rewrite <- run_refs_values by done.
    by apply getKey_Returns.
Qed.

(** X18.  The first statement of [insert] never overwrites an argument that
    is an object outside the container, a reference [getKey] returned, or,
    passed as the value, a reference [getValue] returned; whenever both
    arguments are left alone the call acts on the two values read on entry;
    and the forward map is the one of that by-value call in every case. *)
Theorem arguments_left_alone b key value :
  (∀ (x : K), survives (object x) key value b) ∧
  (∀ (y : V), survives (object y) key value b) ∧
  (∀ v0 was, survives (getKey_ref v0 was) key value b) ∧
  (∀ k0 was, survives (getValue_ref k0 was) key (getValue_ref k0 was) b) ∧
  (arguments_kept key value b →
   insert_ref key value b = insert (key b) (value b) b) ∧
  m_map (insert_ref key value b) = m_map (insert (key b) (value b) b).
Proof.
  split; [done|]. split; [done|]. split; [done|].
  split; [intros k0 was; apply getValue_ref_survives_as_value|].
  split; [apply insert_ref_kept|done].
Qed.

End by_reference.

(** ** One type for keys and values *)
Section same_type.
Context {T : Type} `{Countable T}.

Implicit Types (b : Bimap T T).

(** X19.  With [TypeKey = TypeValue], on a container that holds [k] for the
    key [k], [insert(getValue(k), v)] passes as its key the very object the
    first statement overwrites: the forward map gets [v] for [k], and the
    reverse entry written for [v] holds [v], not [k]. *)
Theorem key_argument_overwritten b (k v was : T) :
  m_map b !! k = Some k →
  getValue (insert_ref (getValue_ref k was) (object v) b) k = Returns v ∧
  getKey (insert_ref (getValue_ref k was) (object v) b) v = Returns v ∧
  (v ≠ k → ¬ arguments_kept (getValue_ref k was) (object v) b).
Proof.
  intros E.
  assert (Hk : getValue_ref k was b = k).
  { unfold getValue_ref. by rewrite E. }
  assert (Hk' : getValue_ref k was
                  (forward_assigned (getValue_ref k was) (object v) b) = v).
  { unfold getValue_ref, forward_assigned; simpl.
    rewrite E. simpl. by rewrite lookup_insert_eq. }
  split; [|split].
  - apply getValue_Returns. rewrite insert_ref_forward, Hk. simpl.
    apply lookup_insert_eq.
  - apply getKey_Returns. unfold insert_ref. rewrite Hk'. simpl.
    apply lookup_insert_eq.
  - intros Hne [Hs _]. unfold survives in Hs. rewrite Hk', Hk in Hs. done.
Qed.

End same_type.

(** ** [Bimap<int, std::string>] : the test suite and concrete runs *)

#[local] Open Scope Z_scope.
#[local] Open Scope string_scope.

(** [TEST_F(BimapTests, isNotEmpty)] and [sizeIsCorrect] *)
Example test_isNotEmpty_sizeIsCorrect :
  empty m_mapNumberToString = false ∧ size m_mapNumberToString = 3%nat.
Proof. by vm_compute. Qed.

(** [TEST_F(BimapTests, clearResetMap)] *)
Example test_clearResetMap :
  empty (clear m_mapNumberToString) = true ∧
  size (clear m_mapNumberToString) = 0%nat.
Proof. by vm_compute. Qed.

(** [TEST_F(BimapTests, insertNewItems)] *)
Example test_insertNewItems :
  empty (insert 4 "FOUR" m_mapNumberToString) = false ∧
  size (insert 4 "FOUR" m_mapNumberToString) = 4%nat ∧
  getValue (insert 4 "FOUR" m_mapNumberToString) 4 = Returns "FOUR" ∧
  getKey (insert 4 "FOUR" m_mapNumberToString) "FOUR" = Returns 4.
Proof. by vm_compute. Qed.

(** A key and a value the fixture does not hold. *)
Example test_missing_lookups_throw :
  getValue m_mapNumberToString 99 = Throws out_of_range ∧
  getKey m_mapNumberToString "NOT_PRESENT" = Throws out_of_range.
Proof. by vm_compute. Qed.

(** The loops over the fixture, forwards and backwards. *)
Example test_traversals :
  walk Z.le 3 m_mapNumberToString
       (begin m_mapNumberToString) (end_ m_mapNumberToString) =
    [(1, "ONE"); (2, "TWO"); (3, "THREE")] ∧
  rwalk Z.le 3 m_mapNumberToString
        (rbegin m_mapNumberToString) (rend m_mapNumberToString) =
    [(3, "THREE"); (2, "TWO"); (1, "ONE")].
Proof. by vm_compute. Qed.


(** C2.  On the empty bimap, [insert(1, "ONE")] then [insert(1, "UN")]:
    [size()] stays at one and [getValue(1)] returns ["UN"], no key has the
    value ["ONE"] any more, and yet [getKey("ONE")] returns [1] instead of
    throwing; the reverse map keeps two entries, and the stale one survives
    [erase(1)]. *)
Theorem rebinding_leaves_stale_reverse_entry :
  size (insert 1 "UN" (insert 1 "ONE" Bimap_new)) =
    size (insert 1 "ONE" (@Bimap_new Z string _ _ _ _)) ∧
  getValue (insert 1 "UN" (insert 1 "ONE" Bimap_new)) 1 = Returns "UN" ∧
  (∀ k, getValue (insert 1 "UN" (insert 1 "ONE" Bimap_new)) k ≠ Returns "ONE") ∧
  getKey (insert 1 "UN" (insert 1 "ONE" Bimap_new)) "ONE" = Returns 1 ∧
  base.size (m_mapInversed (insert 1 "UN" (insert 1 "ONE" Bimap_new))) = 2%nat ∧
  empty (erase 1 (insert 1 "UN" (insert 1 "ONE" Bimap_new))) = true ∧
  getKey (erase 1 (insert 1 "UN" (insert 1 "ONE" Bimap_new))) "ONE" = Returns 1.
Proof.
  destruct (insert_insert_same_key (@Bimap_new Z string _ _ _ _) 1 "ONE" "UN")
    as (Hs & Hv & _ & Hk); [done|].
  split; [exact Hs|]. split; [exact Hv|]. split; [|split; [exact Hk|]].
  - intros k. rewrite getValue_Returns. simpl.
    destruct (decide (k = 1)) as [->|Hne].
    + by rewrite lookup_insert_eq.
    + by rewrite !lookup_insert_ne, lookup_empty by done.
  - by vm_compute.
Qed.


(** Erasing a present key, then once more; and a key that never was there. *)
Lemma erase_removes_pair_or_nothing_witness :
  m_map m_mapNumberToString !! 2 = Some "TWO" ∧
  getValue (erase 2 m_mapNumberToString) 2 = Throws out_of_range ∧
  getKey (erase 2 m_mapNumberToString) "TWO" = Throws out_of_range ∧
  erase 2 (erase 2 m_mapNumberToString) = erase 2 m_mapNumberToString ∧
  m_map m_mapNumberToString !! 99 = None ∧
  erase 99 m_mapNumberToString = m_mapNumberToString.
Proof.
  destruct (erase_removes_pair_or_nothing m_mapNumberToString 2)
    as (Hpresent & _ & _ & _ & Hagain).
  destruct (erase_removes_pair_or_nothing m_mapNumberToString 99)
    as (_ & Habsent & _).
  destruct (Hpresent "TWO" eq_refl) as (_ & _ & Hv & Hk).
  split; [reflexivity|]. split; [exact Hv|]. split; [exact Hk|].
  split; [exact Hagain|]. split; [reflexivity|]. exact (Habsent eq_refl).
Defined.

Lemma insert_size_witness :
  m_map m_mapNumberToString !! 4 = None ∧
  size (insert 4 "FOUR" m_mapNumberToString) = S (size m_mapNumberToString) ∧
  is_Some (m_map m_mapNumberToString !! 1) ∧
  size (insert 1 "UN" m_mapNumberToString) = size m_mapNumberToString.
Proof.
  destruct (insert_size m_mapNumberToString 4 "FOUR") as [Hnew _].
  destruct (insert_size m_mapNumberToString 1 "UN") as [_ Hold].
  split; [reflexivity|]. split; [exact (Hnew eq_refl)|].
  assert (Hp : is_Some (m_map m_mapNumberToString !! 1))
    by (exists "ONE"; reflexivity).
  split; [exact Hp|exact (Hold Hp)].
Defined.

Lemma erase_frame_witness :
  m_map m_mapNumberToString !! 2 = Some "TWO" ∧
  (∀ k', k' ≠ 2 →
     getValue (erase 2 m_mapNumberToString) k' = getValue m_mapNumberToString k') ∧
  (∀ v', v' ≠ "TWO" →
     getKey (erase 2 m_mapNumberToString) v' = getKey m_mapNumberToString v').
Proof.
  split; [reflexivity|].
  apply (erase_frame m_mapNumberToString 2 "TWO"). reflexivity.
Defined.

(** C8.  The initializer-list constructor yields the state reached from the
    empty bimap by [insert(k, v)] for each pair in order; a key then looks
    up the value of its last pair in the list, or throws when it has none;
    and the three-pair list of the test fixture gives [size() = 3] with each
    key and value looking up its partner. *)
Theorem construct_is_insert_sequence :
  (∀ (K V : Type) `{Countable K, Countable V} (args : list (K * V)),
     Bimap_init args = construct_by_inserts args ∧
     ∀ k, getValue (Bimap_init args) k =
          match last_value k args with
          | Some v => Returns v
          | None => Throws out_of_range
          end) ∧
  m_mapNumberToString =
    construct_by_inserts [(1, "ONE"); (2, "TWO"); (3, "THREE")] ∧
  size m_mapNumberToString = 3%nat ∧
  getValue m_mapNumberToString 1 = Returns "ONE" ∧
  getValue m_mapNumberToString 2 = Returns "TWO" ∧
  getValue m_mapNumberToString 3 = Returns "THREE" ∧
  getKey m_mapNumberToString "ONE" = Returns 1 ∧
  getKey m_mapNumberToString "TWO" = Returns 2 ∧
  getKey m_mapNumberToString "THREE" = Returns 3.
Proof.
  split.
  - intros K V ? ? ? ? args. apply Bimap_init_refines.
  - split; [apply Bimap_init_refines|]. by vm_compute.
Qed.

(** A repeated key in the list: the later pair wins. *)
Example construct_repeated_key :
  getValue (Bimap_init [(1, "ONE"); (2, "TWO"); (1, "UN")]) 1 = Returns "UN" ∧
  size (Bimap_init [(1, "ONE"); (2, "TWO"); (1, "UN")]) = 2%nat.
Proof. by vm_compute. Qed.

Lemma traversal_in_key_order_witness :
  (size m_mapNumberToString ≤ 3)%nat ∧
  (∀ k v, (k, v) ∈ walk Z.le 3 m_mapNumberToString
                     (begin m_mapNumberToString) (end_ m_mapNumberToString) ↔
          getValue m_mapNumberToString k = Returns v) ∧
  StronglySorted (entry_lt Z.le)
    (walk Z.le 3 m_mapNumberToString
          (begin m_mapNumberToString) (end_ m_mapNumberToString)) ∧
  rwalk Z.le 3 m_mapNumberToString
        (rbegin m_mapNumberToString) (rend m_mapNumberToString) =
    reverse (walk Z.le 3 m_mapNumberToString
                  (begin m_mapNumberToString) (end_ m_mapNumberToString)).
Proof.
  assert (Hf : (size m_mapNumberToString ≤ 3)%nat) by (vm_compute; lia).
  destruct (traversal_in_key_order Z.le m_mapNumberToString 3 Hf)
    as (Hin & _ & Hasc & Hrev & _).
  split; [exact Hf|]. split; [exact Hin|]. split; [exact Hasc|exact Hrev].
Defined.

(** ** Concrete runs of the further properties *)

Lemma insert_frame_witness :
  4 ≠ 1 ∧ "FOUR" ≠ "ONE" ∧
  getValue (insert 4 "FOUR" m_mapNumberToString) 1 =
    getValue m_mapNumberToString 1 ∧
  getKey (insert 4 "FOUR" m_mapNumberToString) "ONE" =
    getKey m_mapNumberToString "ONE".
Proof.
  destruct (insert_frame m_mapNumberToString 4 "FOUR") as [Hf Hr].
  assert (Hk : 1 ≠ 4) by lia.
  assert (Hv : "ONE" ≠ "FOUR") by discriminate.
  split; [lia|]. split; [discriminate|].
  split; [exact (Hf 1 Hk)|exact (Hr "ONE" Hv)].
Defined.

Lemma erase_size_witness :
  is_Some (m_map m_mapNumberToString !! 2) ∧
  S (size (erase 2 m_mapNumberToString)) = size m_mapNumberToString ∧
  m_map m_mapNumberToString !! 99 = None ∧
  size (erase 99 m_mapNumberToString) = size m_mapNumberToString.
Proof.
  destruct (erase_size m_mapNumberToString 2) as [Hpresent _].
  destruct (erase_size m_mapNumberToString 99) as [_ Habsent].
  assert (Hp : is_Some (m_map m_mapNumberToString !! 2))
    by (exists "TWO"; reflexivity).
  split; [exact Hp|]. split; [exact (Hpresent Hp)|].
  split; [reflexivity|exact (Habsent eq_refl)].
Defined.

Lemma insert_erase_undo_witness :
  m_map m_mapNumberToString !! 4 = None ∧
  m_mapInversed m_mapNumberToString !! "FOUR" = None ∧
  erase 4 (insert 4 "FOUR" m_mapNumberToString) = m_mapNumberToString ∧
  m_map m_mapNumberToString !! 2 = Some "TWO" ∧
  m_mapInversed m_mapNumberToString !! "TWO" = Some 2 ∧
  insert 2 "TWO" (erase 2 m_mapNumberToString) = m_mapNumberToString.
Proof.
  destruct (insert_erase_undo m_mapNumberToString 4 "FOUR") as [Hnew _].
  destruct (insert_erase_undo m_mapNumberToString 2 "TWO") as [_ Hold].
  split; [reflexivity|]. split; [reflexivity|].
  split; [exact (Hnew eq_refl eq_refl)|].
  split; [reflexivity|]. split; [reflexivity|exact (Hold eq_refl eq_refl)].
Defined.

Lemma lookups_inverse_of_each_other_witness :
  let ops := [Insert 1 "ONE"; Insert 2 "TWO"; Erase 1; Insert 3 "THREE";
              Insert 2 "TWO"; Erase 7] in
  mirrored (@Bimap_new Z string _ _ _ _) ∧
  no_value_collision (@Bimap_new Z string _ _ _ _) ops ∧
  no_key_rebinding (@Bimap_new Z string _ _ _ _) ops ∧
  Forall (λ b', ∀ k v, getValue b' k = Returns v ↔ getKey b' v = Returns k)
         (states_after Bimap_new ops).
Proof.
  intros ops.
  assert (Hv : no_value_collision (@Bimap_new Z string _ _ _ _) ops)
    by (apply no_value_collisionb_sound; vm_compute; reflexivity).
  assert (Hk : no_key_rebinding (@Bimap_new Z string _ _ _ _) ops)
    by (apply no_key_rebindingb_sound; vm_compute; reflexivity).
  split; [exact mirrored_new|]. split; [exact Hv|]. split; [exact Hk|].
  exact (lookups_inverse_of_each_other Bimap_new ops mirrored_new Hv Hk).
Defined.

Lemma construction_from_distinct_pairs_witness :
  NoDup [(1, "ONE"); (2, "TWO"); (3, "THREE")].*1 ∧
  NoDup [(1, "ONE"); (2, "TWO"); (3, "THREE")].*2 ∧
  size m_mapNumberToString = 3%nat ∧
  (∀ k v, getValue m_mapNumberToString k = Returns v ↔
          (k, v) ∈ [(1, "ONE"); (2, "TWO"); (3, "THREE")]) ∧
  (∀ k v, getKey m_mapNumberToString v = Returns k ↔
          (k, v) ∈ [(1, "ONE"); (2, "TWO"); (3, "THREE")]).
Proof.
  assert (Hk : NoDup [(1, "ONE"); (2, "TWO"); (3, "THREE")].*1)
    by (apply (bool_decide_unpack (NoDup _)); vm_compute; exact I).
  assert (Hv : NoDup [(1, "ONE"); (2, "TWO"); (3, "THREE")].*2)
    by (apply (bool_decide_unpack (NoDup _)); vm_compute; exact I).
  split; [exact Hk|]. split; [exact Hv|].
  exact (construction_from_distinct_pairs
           [(1, "ONE"); (2, "TWO"); (3, "THREE")] Hk Hv).
Defined.

Lemma traversal_after_erase_witness :
  (size m_mapNumberToString ≤ 3)%nat ∧
  walk Z.le 3 (erase 2 m_mapNumberToString)
       (begin (erase 2 m_mapNumberToString))
       (end_ (erase 2 m_mapNumberToString)) =
  filter (λ p, p.1 ≠ 2)
         (walk Z.le 3 m_mapNumberToString
               (begin m_mapNumberToString) (end_ m_mapNumberToString)).
Proof.
  assert (Hf : (size m_mapNumberToString ≤ 3)%nat) by (vm_compute; lia).
  split; [exact Hf|].
  exact (traversal_after_erase Z.le m_mapNumberToString 2 3 Hf).
Defined.

Lemma traversal_after_insert_witness :
  (S (size m_mapNumberToString) ≤ 4)%nat ∧
  walk Z.le 4 (insert 0 "ZERO" m_mapNumberToString)
       (begin (insert 0 "ZERO" m_mapNumberToString))
       (end_ (insert 0 "ZERO" m_mapNumberToString)) =
  (filter (λ p, strict Z.le p.1 0)
          (walk Z.le 4 m_mapNumberToString
                (begin m_mapNumberToString) (end_ m_mapNumberToString)) ++
   (0, "ZERO") ::
   filter (λ p, strict Z.le 0 p.1)
          (walk Z.le 4 m_mapNumberToString
                (begin m_mapNumberToString) (end_ m_mapNumberToString)))%list.
Proof.
  assert (Hf : (S (size m_mapNumberToString) ≤ 4)%nat) by (vm_compute; lia).
  split; [exact Hf|].
  exact (traversal_after_insert Z.le m_mapNumberToString 0 "ZERO" 4 Hf).
Defined.

Lemma begin_least_rbegin_greatest_witness :
  deref Z.le m_mapNumberToString (begin m_mapNumberToString)
    = Some (1, "ONE") ∧
  (∀ k v, getValue m_mapNumberToString k = Returns v → (1 ≤ k)%Z) ∧
  rderef Z.le m_mapNumberToString (rbegin m_mapNumberToString)
    = Some (3, "THREE") ∧
  (∀ k v, getValue m_mapNumberToString k = Returns v → (k ≤ 3)%Z).
Proof.
  destruct (begin_least_rbegin_greatest Z.le m_mapNumberToString)
    as (Hb & Hr & _).
  split; [reflexivity|]. split; [exact (proj2 (Hb (1, "ONE") eq_refl))|].
  split; [reflexivity|exact (proj2 (Hr (3, "THREE") eq_refl))].
Defined.

Lemma const_iterators_span_witness :
  (1 < size m_mapNumberToString)%nat ∧
  Nat.iter 1 incr (cbegin m_mapNumberToString) ≠ cend m_mapNumberToString ∧
  Nat.iter 1 rincr (crbegin m_mapNumberToString) ≠ crend m_mapNumberToString ∧
  ∃ p, deref Z.le m_mapNumberToString
         (Nat.iter 1 incr (cbegin m_mapNumberToString)) = Some p ∧
       rderef Z.le m_mapNumberToString
         (Nat.iter (size m_mapNumberToString - 2) rincr
                   (crbegin m_mapNumberToString)) = Some p.
Proof.
  assert (Hn : (1 < size m_mapNumberToString)%nat) by (vm_compute; lia).
  destruct (const_iterators_span Z.le m_mapNumberToString) as (_ & _ & Hspan).
  split; [exact Hn|]. exact (Hspan 1%nat Hn).
Defined.

(** ** Concrete runs with arguments taken by reference *)



Lemma insert_then_lookup_witness :
  let b : Bimap Z Z := insert 3 2 Bimap_new in
  arguments_kept (getValue_ref 3 0) (object 7) b ∧
  getKey (insert_ref (getValue_ref 3 0) (object 7) b) 7 = Returns 2.
Proof.
  intros b.
  assert (Hkept : arguments_kept (getValue_ref 3 0) (object 7) b)
    by (split; reflexivity).
  split; [exact Hkept|].
  destruct (insert_then_lookup b (getValue_ref 3 0) (object 7))
    as (_ & _ & _ & _ & Hk).
  exact (Hk Hkept).
Defined.

Lemma insert_twice_and_swap_witness :
  insert_ref (object 4) (object "FOUR")
    (insert_ref (object 4) (object "FOUR") m_mapNumberToString) =
    insert_ref (object 4) (object "FOUR") m_mapNumberToString ∧
  4 ≠ 5 ∧ "FOUR" ≠ "FIVE" ∧
  insert_ref (object 4) (object "FOUR")
    (insert_ref (object 5) (object "FIVE") m_mapNumberToString) =
  insert_ref (object 5) (object "FIVE")
    (insert_ref (object 4) (object "FOUR") m_mapNumberToString).
Proof.
  destruct (insert_twice_and_swap m_mapNumberToString 4 "FOUR")
    as [Htwice Hswap].
  assert (Hk : 4 ≠ 5) by lia.
  assert (Hv : "FOUR" ≠ "FIVE") by discriminate.
  split; [exact Htwice|]. split; [exact Hk|]. split; [exact Hv|].
  exact (Hswap 5 "FIVE" Hk Hv).
Defined.

(** The forward half on a history whose second insert overwrites its own key
    argument; the reverse half on one that passes objects only and leaves a
    stale reverse entry behind. *)
Lemma lookups_come_from_inserts_witness :
  let aliasing : list (@rcall Z Z _ _ _ _) :=
    [RInsert (object 5) (object 5); RInsert (getValue_ref 5 0) (object 7)] in
  let plain : list (@rcall Z Z _ _ _ _) :=
    [RInsert (object 1) (object 10); RInsert (object 1) (object 11);
     RErase (object 1)] in
  getValue (run_refs Bimap_new aliasing) 5 = Returns 7 ∧
  Insert 5 7 ∈ values_read Bimap_new aliasing ∧
  arguments_survive Bimap_new plain ∧
  getKey (run_refs Bimap_new plain) 10 = Returns 1 ∧
  Insert 1 10 ∈ values_read Bimap_new plain.
Proof.
  intros aliasing plain.
  destruct (lookups_come_from_inserts aliasing 5 7) as [Hf _].
  destruct (lookups_come_from_inserts plain 1 10) as [_ Hr].
  assert (Ha : arguments_survive Bimap_new plain)
    by (repeat split; reflexivity).
  split; [reflexivity|]. split; [exact (Hf eq_refl)|].
  split; [exact Ha|]. split; [reflexivity|exact (Hr Ha eq_refl)].
Defined.

Lemma arguments_left_alone_witness :
  arguments_kept (getKey_ref "TWO" 0) (getValue_ref 3 "") m_mapNumberToString ∧
  insert_ref (getKey_ref "TWO" 0) (getValue_ref 3 "") m_mapNumberToString =
    insert 2 "THREE" m_mapNumberToString.
Proof.
  assert (Hkept : arguments_kept (getKey_ref "TWO" 0) (getValue_ref 3 "")
                                 m_mapNumberToString)
    by (split; reflexivity).
  split; [exact Hkept|].
  destruct (arguments_left_alone m_mapNumberToString
              (getKey_ref "TWO" 0) (getValue_ref 3 ""))
    as (_ & _ & _ & _ & Hact & _).
  exact (Hact Hkept).
Defined.

(** [b.insert(5, 5); b.insert(b.getValue(5), 7);] *)
Lemma key_argument_overwritten_witness :
  let b : Bimap Z Z := insert 5 5 Bimap_new in
  m_map b !! 5 = Some 5 ∧
  getValue (insert_ref (getValue_ref 5 0) (object 7) b) 5 = Returns 7 ∧
  getKey (insert_ref (getValue_ref 5 0) (object 7) b) 7 = Returns 7 ∧
  ¬ arguments_kept (getValue_ref 5 0) (object 7) b.
Proof.
  intros b.
  assert (E : m_map b !! 5 = Some 5) by reflexivity.
  assert (Hne : 7 ≠ 5) by lia.
  destruct (key_argument_overwritten b 5 7 0 E) as (Hg & Hk & Hn).
  split; [exact E|]. split; [exact Hg|]. split; [exact Hk|exact (Hn Hne)].
Defined.

End cmap.
